(** * ElGamal client: modular arithmetic and round state machine

    A shallow embedding of [src/elgamal_client/src/elgamal_client.cpp].
    Unsigned 64-bit values are integers of [Z] with the wrap-around of every
    conversion written out; operations whose behaviour is undefined in C++
    (a remainder by zero, a signed overflow) return [None]. *)

From Stdlib Require Import ZArith Znumtheory Zmod Lia List Bool.
Import ListNotations.

Local Open Scope Z_scope.

(** ** Machine integers *)

Definition u64 (x : Z) : Z := x mod 2 ^ 64.
Definition u128 (x : Z) : Z := x mod 2 ^ 128.
Definition is_u64 (x : Z) : Prop := 0 <= x < 2 ^ 64.

(** [static_cast<int64_t>] of an unsigned 64-bit value. *)
Definition to_int64 (x : Z) : Z := if x <? 2 ^ 63 then x else x - 2 ^ 64.

Definition INT_MAX : Z := 2 ^ 31 - 1.

(** [++r] on an [int]: signed overflow is undefined. *)
Definition incr_int (r : Z) : option Z :=
  if r + 1 <=? INT_MAX then Some (r + 1) else None.

(** ** A small error monad for undefined behaviour *)

Definition bind {A B : Type} (m : option A) (f : A -> option B) : option B :=
  match m with
  | Some a => f a
  | None => None
  end.

Notation "x <- m ;; k" := (bind m (fun x => k))
  (at level 61, m at next level, right associativity).
Notation "' pat <- m ;; k" := (bind m (fun pat => k))
  (at level 61, pat pattern, m at next level, right associativity).

(** ** Modular arithmetic (lines 33-52) *)

(** [(static_cast<__uint128_t>(a) * b) % mod], cast back to 64 bits.
    The source's parameter [mod] is written [m]: [mod] is an operator here. *)
Definition mod_mul (a b m : Z) : option Z :=
  if m =? 0 then None
  else Some (u64 (u128 (a * b) mod m)).

(** The [while (exp > 0)] loop of [mod_pow]; one unit of fuel per
    iteration, [None] when the fuel runs out before the loop exits. *)
Fixpoint mod_pow_loop (fuel : nat) (result base exp m : Z) : option Z :=
  if exp >? 0 then
    match fuel with
    | O => None
    | S fuel' =>
        result' <- (if negb (Z.land exp 1 =? 0)
                    then mod_mul result base m
                    else Some result) ;;
        base' <- mod_mul base base m ;;
        mod_pow_loop fuel' result' base' (Z.shiftr exp 1) m
    end
  else Some result.

(** An [exp] of 64 bits is exhausted after at most 64 right shifts. *)
Definition mod_pow (base exp m : Z) : option Z :=
  if m =? 0 then None
  else
    let result := 1 mod m in
    let base := base mod m in
    mod_pow_loop 64 result base exp m.

(** Lines 100-101 of the response callback. *)
Definition recover (y1 y2 p n : Z) : option Z :=
  let exponent := u64 (p - 1 - n) in
  e <- mod_pow y1 exponent p ;;
  mod_mul y2 e p.

(** ** The specification side of the round-trip law *)

(** The exponents [0 .. p-2] and the residues [1 .. p-1]. *)
Definition Zrange (lo : Z) (len : nat) : list Z :=
  map (fun i => lo + Z.of_nat i) (seq 0 len).

(** [a] generates the multiplicative group modulo [p]: every residue in
    [1, p-1] is a power of [a]. *)
Definition is_generator (p a : Z) : bool :=
  forallb
    (fun x => existsb (fun e => a ^ e mod p =? x) (Zrange 0 (Z.to_nat (p - 1))))
    (Zrange 1 (Z.to_nat (p - 1))).

(** Trial division by every [d] in [2, p-1]. *)
Definition is_prime (p : Z) : bool :=
  (1 <? p)
  && forallb (fun d => negb (p mod d =? 0)) (Zrange 2 (Z.to_nat (p - 2))).

(** ** Messages of the external interfaces *)

(** [rm_server::msg::GetElGamalParams] *)
Record GetElGamalParams : Type := { msg_p : Z; msg_a : Z }.

(** What [future.get()] yields in the callback: the response of
    [rm_server::srv::ElGamalEncrypt], or an exception. *)
Inductive SharedFuture : Type :=
| FutureValue (y1 y2 : Z)
| FutureException.

(** The closure handed to [async_send_request] together with its request:
    the captured [p] and [n]. *)
Record Pending : Type := { req_public_key : Z; cap_p : Z; cap_n : Z }.

(** What one invocation does to the outside world. *)
Inductive Effect : Type :=
| SendRequest (r : Pending)      (* encrypt_client_->async_send_request *)
| Publish (data : Z).            (* result_pub_->publish *)

(** ** The randomness source *)

(** [std::mt19937_64] with [std::uniform_int_distribution<uint64_t>]: a
    draw from [lo, hi] returns the value and the advanced generator. *)
Class RandomSource : Type := {
  Rng : Type;
  uniform_int : Z -> Z -> Rng -> Z * Rng
}.

Definition in_range_draws (R : RandomSource) : Prop :=
  forall lo hi g, lo <= hi -> lo <= fst (uniform_int lo hi g) <= hi.

(** A generator that replays a tape of raw outputs, clamped to the
    requested bounds; used to run the model. *)
Definition tape_source : RandomSource :=
  {| Rng := list Z;
     uniform_int := fun lo hi g =>
       match g with
       | [] => (lo, [])
       | w :: g' => (Z.max lo (Z.min hi w), g')
       end |}.

(** ** The node (lines 15-136) *)

Definition kTotalRounds : Z := 5.

Section Node.
Context {R : RandomSource}.

Record ElGamalClient : Type := {
  rng_ : Rng;
  waiting_service_ : bool;
  finished_ : bool;
  round_ : Z
}.

Definition set_rng (c : ElGamalClient) (g : Rng) : ElGamalClient :=
  {| rng_ := g; waiting_service_ := waiting_service_ c;
     finished_ := finished_ c; round_ := round_ c |}.

Definition set_waiting (c : ElGamalClient) (w : bool) : ElGamalClient :=
  {| rng_ := rng_ c; waiting_service_ := w;
     finished_ := finished_ c; round_ := round_ c |}.

Definition set_finished (c : ElGamalClient) (f : bool) : ElGamalClient :=
  {| rng_ := rng_ c; waiting_service_ := waiting_service_ c;
     finished_ := f; round_ := round_ c |}.

Definition set_round (c : ElGamalClient) (r : Z) : ElGamalClient :=
  {| rng_ := rng_ c; waiting_service_ := waiting_service_ c;
     finished_ := finished_ c; round_ := r |}.

(** The member initialisers of lines 132-135; [seed] is what
    [std::random_device] gave the constructor. *)
Definition new_client (seed : Rng) : ElGamalClient :=
  {| rng_ := seed; waiting_service_ := false; finished_ := false; round_ := 0 |}.

(** [on_params] (lines 54-92). [service_available] is the outcome of
    [wait_for_service(1s)], consulted only when line 78 is reached. *)
Definition on_params (c : ElGamalClient) (msg : GetElGamalParams)
    (service_available : bool) : option (ElGamalClient * list Effect) :=
  if finished_ c || waiting_service_ c then Some (c, [])
  else if round_ c >=? kTotalRounds then Some (set_finished c true, [])
  else
    let p := msg_p msg in
    let a := msg_a msg in
    if p <? 3 then Some (c, [])
    else
      let (n, g) := uniform_int 1 (p - 2) (rng_ c) in
      let c := set_rng c g in
      b <- mod_pow a n p ;;
      if negb service_available then Some (c, [])
      else
        let request := {| req_public_key := b; cap_p := p; cap_n := n |} in
        let c := set_waiting c true in
        Some (c, [SendRequest request]).

(** The guards of lines 56-72 that an event passes before the probe of
    line 78 is made. *)
Definition reaches_probe (c : ElGamalClient) (msg : GetElGamalParams) : bool :=
  negb (finished_ c || waiting_service_ c)
  && negb (round_ c >=? kTotalRounds)
  && negb (msg_p msg <? 3).

(** The response callback (lines 94-123) of the request [r]. *)
Definition on_response (c : ElGamalClient) (r : Pending) (future : SharedFuture)
    : option (ElGamalClient * list Effect) :=
  match future with
  | FutureValue y1 y2 =>
      x <- recover y1 y2 (cap_p r) (cap_n r) ;;
      let out := [Publish (to_int64 x)] in
      round' <- incr_int (round_ c) ;;
      let c := set_round c round' in
      let c := set_waiting c false in
      if round_ c >=? kTotalRounds
      then Some (set_finished c true, out)
      else Some (c, out)
  | FutureException => Some (set_waiting c false, [])
  end.

(** ** The node inside the executor *)

(** The node and the requests whose callbacks have not run yet. *)
Record System : Type := {
  node : ElGamalClient;
  inflight : list Pending
}.

Inductive Event : Type :=
| ParamsMsg (msg : GetElGamalParams) (service_available : bool)
| ServiceResponse (i : nat) (future : SharedFuture).

Definition sent (out : list Effect) : list Pending :=
  flat_map (fun e => match e with SendRequest r => [r] | Publish _ => [] end) out.

Definition published (out : list Effect) : list Z :=
  flat_map (fun e => match e with SendRequest _ => [] | Publish d => [d] end) out.

Fixpoint remove_nth {A : Type} (i : nat) (l : list A) : list A :=
  match l, i with
  | [], _ => []
  | _ :: l', O => l'
  | x :: l', S i' => x :: remove_nth i' l'
  end.

(** One callback invocation. A response is delivered to the [i]-th
    outstanding request, whose callback then runs once; [None] when there
    is no such request or the invocation has undefined behaviour. *)
Definition step (s : System) (ev : Event) : option (System * list Effect) :=
  match ev with
  | ParamsMsg msg service_available =>
      '(c, out) <- on_params (node s) msg service_available ;;
      Some ({| node := c; inflight := inflight s ++ sent out |}, out)
  | ServiceResponse i future =>
      r <- nth_error (inflight s) i ;;
      '(c, out) <- on_response (node s) r future ;;
      Some ({| node := c; inflight := remove_nth i (inflight s) |}, out)
  end.

Fixpoint run (s : System) (evs : list Event) : option (System * list Effect) :=
  match evs with
  | [] => Some (s, [])
  | ev :: evs' =>
      '(s1, out1) <- step s ev ;;
      '(s2, out2) <- run s1 evs' ;;
      Some (s2, out1 ++ out2)
  end.

(** Events the executor can deliver in state [s]: message fields are
    64-bit values and a response answers an outstanding request. *)
Definition deliverable (s : System) (ev : Event) : Prop :=
  match ev with
  | ParamsMsg msg _ => is_u64 (msg_p msg) /\ is_u64 (msg_a msg)
  | ServiceResponse i _ => (i < length (inflight s))%nat
  end.

Definition initial (seed : Rng) : System :=
  {| node := new_client seed; inflight := [] |}.

Definition reachable (s : System) : Prop :=
  exists seed evs out, run (initial seed) evs = Some (s, out).

(** What holds of the round state between two callback invocations. *)
Definition round_invariant (s : System) : Prop :=
  0 <= round_ (node s) <= kTotalRounds
  /\ (finished_ (node s) = true -> round_ (node s) = kTotalRounds)
  /\ (if waiting_service_ (node s)
      then finished_ (node s) = false
           /\ round_ (node s) < kTotalRounds
           /\ exists r, inflight s = [r] /\ 3 <= cap_p r
      else inflight s = []).

End Node.

Arguments ElGamalClient R : clear implicits.
Arguments System R : clear implicits.

(** ** A run of the model: the scenario p = 23, a = 5, n = 6 *)

Definition scenario_params : GetElGamalParams := {| msg_p := 23; msg_a := 5 |}.

(** Every draw of the scenario is 6. *)
Definition scenario_seed : list Z := [6; 6; 6; 6; 6; 6].

Definition scenario_round : list Event :=
  [ParamsMsg scenario_params true; ServiceResponse 0 (FutureValue 10 21)].

Definition scenario_waiting : System tape_source :=
  {| node := {| rng_ := (tl scenario_seed : @Rng tape_source);
                waiting_service_ := true;
                finished_ := false; round_ := 0 |};
     inflight := [{| req_public_key := 8; cap_p := 23; cap_n := 6 |}] |}.

Definition scenario_finished : System tape_source :=
  {| node := {| rng_ := (Nat.iter 5 (@tl Z) scenario_seed : @Rng tape_source);
                waiting_service_ := false; finished_ := true; round_ := 5 |};
     inflight := [] |}.

(** The scenario's state once its first response has been handled. *)
Definition scenario_after_round : System tape_source :=
  {| node := {| rng_ := (tl scenario_seed : @Rng tape_source);
                waiting_service_ := false; finished_ := false; round_ := 1 |};
     inflight := [] |}.

(** ** Further predicates on requests and event sequences *)

(** What [on_params] puts into a request: a modulus that passed line 69, a
    secret within the bounds of line 74 and a public key reduced modulo
    the modulus. *)
Definition wf_request (r : Pending) : Prop :=
  3 <= cap_p r
  /\ 1 <= cap_n r <= cap_p r - 2
  /\ 0 <= req_public_key r < cap_p r.

Definition is_params_event (ev : Event) : bool :=
  match ev with
  | ParamsMsg _ _ => true
  | ServiceResponse _ _ => false
  end.


(** ** Arithmetic facts *)

Lemma u64_small x : is_u64 x -> u64 x = x.
Proof. intros H. apply Z.mod_small. exact H. Qed.

Lemma mul_u64_lt_2_128 x y : is_u64 x -> is_u64 y -> 0 <= x * y < 2 ^ 128.
Proof.
  unfold is_u64. intros Hx Hy.
  replace (2 ^ 128) with (2 ^ 64 * 2 ^ 64) by reflexivity.
  nia.
Qed.

Lemma mod_mul_spec x y m :
  is_u64 x -> is_u64 y -> is_u64 m -> 1 <= m ->
  mod_mul x y m = Some ((x * y) mod m).
Proof.
  intros Hx Hy Hm Hpos. unfold mod_mul.
  destruct (Z.eqb_spec m 0) as [E | _]; [lia |].
  pose proof (mul_u64_lt_2_128 x y Hx Hy) as Hxy.
  unfold u128. rewrite (Z.mod_small (x * y)) by exact Hxy.
  f_equal. apply u64_small.
  pose proof (Z.mod_pos_bound (x * y) m ltac:(lia)).
  unfold is_u64 in *. lia.
Qed.

Lemma land_1_mod_2 e : Z.land e 1 = e mod 2.
Proof. change 1 with (Z.ones 1) at 1. rewrite Z.land_ones by lia. reflexivity. Qed.

Lemma shiftr_1_div_2 e : Z.shiftr e 1 = e / 2.
Proof. rewrite Z.shiftr_div_pow2 by lia. reflexivity. Qed.

(** Splitting off the lowest bit of the exponent. *)
Lemma pow_bit_split b e :
  0 <= e -> b ^ e = (b * b) ^ (e / 2) * b ^ (e mod 2).
Proof.
  intros He.
  pose proof (Z.div_mod e 2 ltac:(lia)) as Hdm.
  pose proof (Z.mod_pos_bound e 2 ltac:(lia)) as Hm.
  assert (0 <= e / 2) as Hd by (apply Z.div_pos; lia).
  rewrite Hdm at 1.
  rewrite Z.pow_add_r by lia.
  rewrite Z.pow_mul_r by lia.
  rewrite Z.pow_2_r. reflexivity.
Qed.

(** The loop invariant of square-and-multiply: [result * base ^ exp] is
    preserved modulo [m], and [fuel] bounds the bit length of [exp]. *)
Lemma mod_pow_loop_spec fuel :
  forall result base exp m,
    1 <= m < 2 ^ 64 ->
    0 <= result < m -> 0 <= base < m ->
    0 <= exp < 2 ^ Z.of_nat fuel ->
    mod_pow_loop fuel result base exp m = Some ((result * base ^ exp) mod m).
Proof.
  induction fuel as [| fuel IH]; intros result base exp m Hm Hr Hb He.
  - assert (exp = 0) as -> by (change (2 ^ Z.of_nat 0) with 1 in He; lia).
    cbn. rewrite Z.mul_1_r, Z.mod_small by lia. reflexivity.
  - cbn [mod_pow_loop].
    destruct (Z.gtb_spec exp 0) as [Hpos | Hzero].
    2: { assert (exp = 0) as -> by lia.
         rewrite Z.pow_0_r, Z.mul_1_r, Z.mod_small by lia. reflexivity. }
    assert (is_u64 result /\ is_u64 base /\ is_u64 m) as (Ur & Ub & Um)
      by (unfold is_u64; lia).
    rewrite (mod_mul_spec base base m Ub Ub Um) by lia.
    pose proof (Z.mod_pos_bound (base * base) m ltac:(lia)) as Hbb.
    pose proof (Z.mod_pos_bound exp 2 ltac:(lia)) as Hbit.
    assert (0 <= Z.shiftr exp 1 < 2 ^ Z.of_nat fuel) as He'.
    { rewrite shiftr_1_div_2. split; [apply Z.div_pos; lia |].
      apply Z.div_lt_upper_bound; [lia |].
      rewrite Nat2Z.inj_succ, Z.pow_succ_r in He by lia. lia. }
    rewrite land_1_mod_2.
    rewrite (pow_bit_split base exp) by lia.
    destruct (Z.eqb_spec (exp mod 2) 0) as [Hbit0 | Hbit1]; cbn [negb bind].
    + rewrite IH by (try assumption; lia).
      rewrite shiftr_1_div_2, Hbit0, Z.pow_0_r, Z.mul_1_r.
      f_equal.
      rewrite <- Z.mul_mod_idemp_r by lia.
      rewrite Z.mod_pow_l.
      rewrite Z.mul_mod_idemp_r by lia. reflexivity.
    + assert (exp mod 2 = 1) as -> by lia.
      rewrite (mod_mul_spec result base m Ur Ub Um) by lia. cbn [bind].
      pose proof (Z.mod_pos_bound (result * base) m ltac:(lia)) as Hrb.
      rewrite IH by (try assumption; lia).
      rewrite shiftr_1_div_2, Z.pow_1_r.
      f_equal.
      rewrite <- Z.mul_mod_idemp_r by lia.
      rewrite Z.mod_pow_l.
      rewrite Z.mul_mod_idemp_r by lia.
      rewrite Z.mul_mod_idemp_l by lia.
      f_equal. ring.
Qed.

Lemma mod_pow_spec base exp m :
  is_u64 exp -> is_u64 m -> 1 <= m ->
  mod_pow base exp m = Some (base ^ exp mod m).
Proof.
  intros He Hm Hpos. unfold mod_pow.
  destruct (Z.eqb_spec m 0) as [E | _]; [lia |].
  pose proof (Z.mod_pos_bound 1 m ltac:(lia)).
  pose proof (Z.mod_pos_bound base m ltac:(lia)).
  unfold is_u64 in *.
  rewrite mod_pow_loop_spec by (try assumption; try lia).
  f_equal.
  rewrite Z.mul_mod_idemp_l by lia.
  rewrite Z.mul_1_l. apply Z.mod_pow_l.
Qed.

(** Whatever the operands, the loop ends within its fuel once the
    exponent fits in [fuel] bits and the modulus is not zero. *)
Lemma mod_pow_loop_defined fuel :
  forall result base exp m,
    m <> 0 -> 0 <= exp < 2 ^ Z.of_nat fuel ->
    exists z, mod_pow_loop fuel result base exp m = Some z.
Proof.
  induction fuel as [| fuel IH]; intros result base exp m Hm He.
  - assert (exp = 0) as -> by (change (2 ^ Z.of_nat 0) with 1 in He; lia).
    cbn. eauto.
  - cbn [mod_pow_loop].
    destruct (Z.gtb_spec exp 0) as [Hpos | Hzero]; [| eauto].
    unfold mod_mul. destruct (Z.eqb_spec m 0) as [E | _]; [contradiction |].
    assert (0 <= Z.shiftr exp 1 < 2 ^ Z.of_nat fuel) as He'.
    { rewrite shiftr_1_div_2. split; [apply Z.div_pos; lia |].
      apply Z.div_lt_upper_bound; [lia |].
      rewrite Nat2Z.inj_succ, Z.pow_succ_r in He by lia. lia. }
    destruct (negb (Z.land exp 1 =? 0)); cbn [bind]; apply IH; assumption.
Qed.

Lemma recover_defined y1 y2 p n :
  p <> 0 -> exists x, recover y1 y2 p n = Some x.
Proof.
  intros Hp. unfold recover, mod_pow.
  destruct (Z.eqb_spec p 0) as [E | _]; [contradiction |].
  destruct (mod_pow_loop_defined 64 (1 mod p) (y1 mod p) (u64 (p - 1 - n)) p Hp)
    as [e He].
  { unfold u64. apply Z.mod_pos_bound. reflexivity. }
  rewrite He. cbn [bind]. unfold mod_mul.
  destruct (Z.eqb_spec p 0) as [E | _]; [contradiction | eauto].
Qed.

(** ** Number theory behind the round trip *)

Lemma In_Zrange x lo len :
  In x (Zrange lo len) <-> lo <= x < lo + Z.of_nat len.
Proof.
  unfold Zrange. rewrite in_map_iff. split.
  - intros (i & <- & Hi). apply in_seq in Hi. lia.
  - intros Hx. exists (Z.to_nat (x - lo)). split; [lia |].
    apply in_seq. lia.
Qed.

Lemma is_prime_sound p : is_prime p = true -> Z.prime p.
Proof.
  unfold is_prime. intros H.
  apply andb_true_iff in H as [H1 Hall].
  apply Z.ltb_lt in H1.
  split; [exact H1 |].
  intros d Hd Hdiv.
  rewrite forallb_forall in Hall.
  specialize (Hall d).
  rewrite In_Zrange in Hall.
  assert (negb (p mod d =? 0) = true) as Hnd by (apply Hall; lia).
  apply Z.mod_divide in Hdiv; [| lia].
  rewrite Hdiv in Hnd. discriminate.
Qed.

(** A generator is not a multiple of the modulus: 2 is one of its powers. *)
Lemma generator_nonzero p a :
  3 <= p -> is_generator p a = true -> a mod p <> 0.
Proof.
  intros Hp Hgen Hzero.
  unfold is_generator in Hgen. rewrite forallb_forall in Hgen.
  specialize (Hgen 2).
  rewrite In_Zrange in Hgen.
  assert (existsb (fun e => a ^ e mod p =? 2) (Zrange 0 (Z.to_nat (p - 1))) = true)
    as Hex by (apply Hgen; lia).
  apply existsb_exists in Hex as (e & Hin & He).
  apply In_Zrange in Hin. apply Z.eqb_eq in He.
  rewrite <- Z.mod_pow_l, Hzero in He.
  destruct (Z.eq_dec e 0) as [-> | Hne].
  - rewrite Z.pow_0_r, Z.mod_small in He by lia. lia.
  - rewrite Z.pow_0_l, Z.mod_0_l in He by lia. lia.
Qed.

(** The algebra of ElGamal decryption over the integers. *)
Lemma elgamal_cancel p a n m k :
  Z.prime p -> a mod p <> 0 ->
  0 <= n <= p - 1 -> 0 <= k ->
  (m * (a ^ n mod p) ^ k mod p * ((a ^ k mod p) ^ (p - 1 - n) mod p)) mod p
  = m mod p.
Proof.
  intros Hprime Ha Hn Hk.
  assert (1 < p) as Hp by (destruct Hprime; assumption).
  rewrite <- Z.mul_mod by lia.
  rewrite Z.mul_mod by lia.
  rewrite (Z.mul_mod m ((a ^ n mod p) ^ k)) by lia.
  rewrite !Z.mod_pow_l.
  rewrite <- (Z.mul_mod m) by lia.
  rewrite <- Z.mul_mod by lia.
  rewrite <- !Z.pow_mul_r by lia.
  rewrite <- Z.mul_assoc, <- Z.pow_add_r by nia.
  replace (n * k + k * (p - 1 - n)) with ((p - 1) * k) by ring.
  rewrite Z.pow_mul_r by lia.
  rewrite <- Z.mul_mod_idemp_r by lia.
  rewrite <- Z.mod_pow_l.
  rewrite (Z.fermat_nz p a Hprime Ha).
  rewrite Z.pow_1_l by lia.
  rewrite Z.mul_mod_idemp_r by lia.
  rewrite Z.mul_1_r. reflexivity.
Qed.

(** ** Claims about the modular arithmetic *)

(** C1. Round-trip law: for a prime [p >= 3], a generator [a] of the group
    modulo [p], a secret [n] in [1, p-2] with contribution [b = a^n mod p],
    a message [m] in [0, p-1] and an encryption ephemeral [k], the ciphertext
    [y1 = a^k mod p], [y2 = m * b^k mod p] is recovered to [m] by the
    computation of the response callback,
    [mod_mul(y2, mod_pow(y1, p-1-n, p), p)]; [b] is what [mod_pow(a, n, p)]
    sent as the public key. *)
Theorem round_trip_recovers_message p a n m k b y1 y2 :
  is_prime p = true -> 3 <= p -> is_u64 p ->
  is_generator p a = true ->
  1 <= n <= p - 2 ->
  0 <= m <= p - 1 ->
  0 <= k ->
  b = a ^ n mod p ->
  y1 = a ^ k mod p ->
  y2 = m * b ^ k mod p ->
  mod_pow a n p = Some b /\ recover y1 y2 p n = Some m.
Proof.
  intros Hprime Hp3 Hp Hgen Hn Hm Hk -> -> ->.
  assert (is_u64 n) as Un by (unfold is_u64 in *; lia).
  split; [apply mod_pow_spec; (assumption || lia) |].
  unfold recover.
  assert (is_u64 (p - 1 - n)) as Ue by (unfold is_u64 in *; lia).
  rewrite (u64_small _ Ue).
  rewrite mod_pow_spec by (assumption || lia). cbn [bind].
  assert (forall z, is_u64 (z mod p)) as Umod.
  { intros z. pose proof (Z.mod_pos_bound z p ltac:(lia)).
    unfold is_u64 in *. lia. }
  rewrite mod_mul_spec by (auto; lia).
  f_equal.
  rewrite elgamal_cancel.
  - apply Z.mod_small. lia.
  - apply is_prime_sound. exact Hprime.
  - apply generator_nonzero; assumption.
  - lia.
  - exact Hk.
Qed.

Lemma round_trip_recovers_message_witness :
  mod_pow 5 6 23 = Some 8 /\ recover 10 21 23 6 = Some 15.
Proof.
  apply (round_trip_recovers_message 23 5 6 15 3 8 10 21);
    solve [ reflexivity | unfold is_u64; lia ].
Defined.

(** C2. For every base, every [exp >= 0] and every [m >= 1] of 64 bits,
    [mod_pow(base, exp, m)] returns [base^exp mod m]; in particular
    [mod_pow(base, 0, m)] is [1 mod m], which is 0 when [m = 1]. The
    function is total on that domain: the loop ends and no remainder by
    zero is taken. *)
Theorem mod_pow_correct base exp m :
  is_u64 base -> is_u64 exp -> is_u64 m -> 1 <= m ->
  mod_pow base exp m = Some (base ^ exp mod m)
  /\ mod_pow base 0 m = Some (1 mod m)
  /\ (m = 1 -> mod_pow base 0 m = Some 0).
Proof.
  intros Hb He Hm Hpos.
  assert (is_u64 0) as U0 by (unfold is_u64; lia).
  repeat split.
  - apply mod_pow_spec; assumption.
  - rewrite mod_pow_spec by assumption. rewrite Z.pow_0_r. reflexivity.
  - intros ->. rewrite mod_pow_spec by assumption. reflexivity.
Qed.

Lemma mod_pow_correct_witness :
  mod_pow 5 16 23 = Some (5 ^ 16 mod 23)
  /\ mod_pow 5 0 23 = Some (1 mod 23)
  /\ (23 = 1 -> mod_pow 5 0 23 = Some 0).
Proof.
  apply (mod_pow_correct 5 16 23); unfold is_u64; lia.
Defined.

(** C3. For all 64-bit unsigned [x], [y] and every [m >= 1],
    [mod_mul(x, y, m)] returns exactly [(x*y) mod m]: the 128-bit
    intermediate product does not wrap and the reduced result fits in 64
    bits. *)
Theorem mod_mul_exact x y m :
  is_u64 x -> is_u64 y -> is_u64 m -> 1 <= m ->
  mod_mul x y m = Some ((x * y) mod m)
  /\ u128 (x * y) = x * y
  /\ is_u64 ((x * y) mod m).
Proof.
  intros Hx Hy Hm Hpos.
  split; [apply mod_mul_spec; assumption |].
  split.
  - apply Z.mod_small. apply mul_u64_lt_2_128; assumption.
  - pose proof (Z.mod_pos_bound (x * y) m ltac:(lia)).
    unfold is_u64 in *. lia.
Qed.

Lemma mod_mul_exact_witness :
  mod_mul (2 ^ 64 - 1) (2 ^ 64 - 1) (2 ^ 64 - 1) = Some 0
  /\ u128 ((2 ^ 64 - 1) * (2 ^ 64 - 1)) = (2 ^ 64 - 1) * (2 ^ 64 - 1)
  /\ is_u64 (((2 ^ 64 - 1) * (2 ^ 64 - 1)) mod (2 ^ 64 - 1)).
Proof.
  apply (mod_mul_exact (2 ^ 64 - 1) (2 ^ 64 - 1) (2 ^ 64 - 1));
    unfold is_u64; lia.
Defined.

(** ** The round state machine *)

Section NodeProofs.
Context {R : RandomSource}.

Implicit Types (c : ElGamalClient R) (s : System R).

(** The three ways [on_params] returns: without touching anything, after
    marking the node finished, or after a draw, with or without a request. *)
Lemma on_params_cases c msg av c' out :
  on_params c msg av = Some (c', out) ->
  (c' = c /\ out = [])
  \/ (finished_ c = false /\ waiting_service_ c = false
      /\ kTotalRounds <= round_ c /\ c' = set_finished c true /\ out = [])
  \/ (finished_ c = false /\ waiting_service_ c = false
      /\ round_ c < kTotalRounds /\ 3 <= msg_p msg
      /\ exists b,
          let n := fst (uniform_int 1 (msg_p msg - 2) (rng_ c)) in
          let g := snd (uniform_int 1 (msg_p msg - 2) (rng_ c)) in
          mod_pow (msg_a msg) n (msg_p msg) = Some b
          /\ ((av = false /\ c' = set_rng c g /\ out = [])
              \/ (av = true /\ c' = set_waiting (set_rng c g) true
                  /\ out = [SendRequest {| req_public_key := b;
                                           cap_p := msg_p msg;
                                           cap_n := n |}]))).
Proof.
  unfold on_params. intros H.
  destruct (finished_ c) eqn:Hf; cbn [orb] in H;
    [injection H as <- <-; auto |].
  destruct (waiting_service_ c) eqn:Hw; [injection H as <- <-; auto |].
  destruct (Z.geb_spec (round_ c) kTotalRounds) as [Hr | Hr].
  { injection H as <- <-. right. left. repeat split; auto. }
  destruct (Z.ltb_spec (msg_p msg) 3) as [Hp | Hp];
    [injection H as <- <-; auto |].
  destruct (uniform_int 1 (msg_p msg - 2) (rng_ c)) as [n g] eqn:Hdraw.
  destruct (mod_pow (msg_a msg) n (msg_p msg)) as [b |] eqn:Hb;
    cbn [bind] in H; [| discriminate].
  right. right. repeat split; auto.
  exists b. cbn [fst snd]. split; [exact Hb |].
  destruct av; cbn [negb] in H; injection H as <- <-; auto.
Qed.

(** [on_params] is defined on every well-formed message when the
    generator draws within its bounds. *)
Lemma on_params_defined c msg av :
  in_range_draws R -> is_u64 (msg_p msg) ->
  exists c' out, on_params c msg av = Some (c', out).
Proof.
  intros Hdraws Hp. unfold on_params.
  destruct (finished_ c || waiting_service_ c); [eauto |].
  destruct (round_ c >=? kTotalRounds); [eauto |].
  destruct (Z.ltb_spec (msg_p msg) 3) as [Hp3 | Hp3]; [eauto |].
  pose proof (Hdraws 1 (msg_p msg - 2) (rng_ c) ltac:(lia)) as Hn.
  destruct (uniform_int 1 (msg_p msg - 2) (rng_ c)) as [n g].
  cbn [fst] in Hn.
  rewrite mod_pow_spec by (unfold is_u64 in *; lia).
  cbn [bind]. destruct (negb av); eauto.
Qed.

Lemma on_response_cases c r future c' out :
  on_response c r future = Some (c', out) ->
  round_ c' = (match future with
               | FutureValue _ _ => round_ c + 1
               | FutureException => round_ c
               end)
  /\ waiting_service_ c' = false
  /\ rng_ c' = rng_ c
  /\ finished_ c' = (match future with
                     | FutureValue _ _ =>
                         if round_ c + 1 >=? kTotalRounds then true
                         else finished_ c
                     | FutureException => finished_ c
                     end).
Proof.
  unfold on_response. destruct future as [y1 y2 |].
  - destruct (recover y1 y2 (cap_p r) (cap_n r)) as [x |];
      cbn [bind]; [| discriminate].
    unfold incr_int. destruct (round_ c + 1 <=? INT_MAX);
      cbn [bind]; [| discriminate].
    cbn [set_waiting set_round round_].
    destruct (round_ c + 1 >=? kTotalRounds);
      intros H; injection H as <- <-; cbn; auto.
  - intros H. injection H as <- <-. cbn. auto.
Qed.

Lemma nth_error_singleton {A : Type} (x y : A) i :
  nth_error [x] i = Some y -> i = 0%nat /\ y = x.
Proof.
  destruct i as [| i]; cbn.
  - intros H. injection H as <-. auto.
  - destruct i; discriminate.
Qed.

Lemma initial_invariant seed : round_invariant (initial seed).
Proof.
  unfold round_invariant, kTotalRounds. cbn.
  repeat split; (lia || discriminate || auto).
Qed.

Lemma step_invariant s ev s' out :
  round_invariant s -> step s ev = Some (s', out) -> round_invariant s'.
Proof.
  intros (Hround & Hfin & Hwait) Hstep.
  destruct ev as [msg av | i future]; cbn [step] in Hstep.
  - destruct (on_params (node s) msg av) as [[c o] |] eqn:Hon;
      cbn [bind] in Hstep; [| discriminate].
    injection Hstep as <- <-.
    apply on_params_cases in Hon
      as [(-> & ->) | [(Hf & Hw & Hr & -> & ->) | (Hf & Hw & Hr & Hp & b & _ & Hav)]].
    + unfold round_invariant. cbn [node inflight sent flat_map].
      rewrite app_nil_r. auto.
    + unfold round_invariant.
      cbn [node inflight sent flat_map set_finished round_ finished_
           waiting_service_].
      rewrite app_nil_r. rewrite Hw in *. repeat split; (lia || auto).
    + rewrite Hw in Hwait.
      destruct Hav as [(_ & -> & ->) | (_ & -> & ->)]; unfold round_invariant;
        cbn [node inflight sent flat_map set_waiting set_rng round_ finished_
             waiting_service_ app]; rewrite Hwait.
      * rewrite Hw. cbn [app]. auto.
      * cbn [app]. repeat split; (lia || auto).
        eexists. split; [reflexivity | exact Hp].
  - destruct (nth_error (inflight s) i) as [r |] eqn:Hnth;
      cbn [bind] in Hstep; [| discriminate].
    destruct (on_response (node s) r future) as [[c o] |] eqn:Hon;
      cbn [bind] in Hstep; [| discriminate].
    injection Hstep as <- <-.
    destruct (waiting_service_ (node s)) eqn:Hw.
    2: { rewrite Hwait in Hnth. destruct i; discriminate. }
    destruct Hwait as (Hf & Hr & r0 & Hin & Hp).
    rewrite Hin in Hnth. apply nth_error_singleton in Hnth as (-> & ->).
    apply on_response_cases in Hon as (Hr' & Hw' & _ & Hf').
    unfold round_invariant. cbn [node inflight].
    rewrite Hin, Hw'. cbn [remove_nth].
    destruct future as [y1 y2 |]; rewrite Hr', Hf'.
    + destruct (Z.geb_spec (round_ (node s) + 1) kTotalRounds);
        repeat split; (lia || auto).
      rewrite Hf. discriminate.
    + repeat split; (lia || auto).
Qed.

Lemma run_invariant evs :
  forall s s' out,
    round_invariant s -> run s evs = Some (s', out) -> round_invariant s'.
Proof.
  induction evs as [| ev evs IH]; intros s s' out Hinv Hrun; cbn [run] in Hrun.
  - injection Hrun as <- <-. exact Hinv.
  - destruct (step s ev) as [[s1 o1] |] eqn:Hstep;
      cbn [bind] in Hrun; [| discriminate].
    destruct (run s1 evs) as [[s2 o2] |] eqn:Hrest;
      cbn [bind] in Hrun; [| discriminate].
    injection Hrun as <- <-.
    eapply IH; [| exact Hrest].
    eapply step_invariant; eassumption.
Qed.

Lemma reachable_invariant s : reachable s -> round_invariant s.
Proof.
  intros (seed & evs & out & Hrun).
  eapply run_invariant; [apply initial_invariant | exact Hrun].
Qed.

(** A response to an outstanding request of a reachable state always runs
    to completion: neither the recovery nor the increment is undefined. *)
Lemma response_defined s i r future :
  reachable s -> nth_error (inflight s) i = Some r ->
  exists s' out, step s (ServiceResponse i future) = Some (s', out).
Proof.
  intros Hreach Hnth.
  destruct (reachable_invariant s Hreach) as (Hround & _ & Hwait).
  destruct (waiting_service_ (node s)) eqn:Hw.
  2: { rewrite Hwait in Hnth. destruct i; discriminate. }
  destruct Hwait as (_ & Hr & r0 & Hin & Hp).
  cbn [step]. rewrite Hnth. cbn [bind].
  rewrite Hin in Hnth. apply nth_error_singleton in Hnth as (-> & ->).
  unfold on_response. destruct future as [y1 y2 |]; [| cbn [bind]; eauto].
  destruct (recover_defined y1 y2 (cap_p r0) (cap_n r0) ltac:(lia)) as [x ->].
  cbn [bind]. unfold incr_int, kTotalRounds, INT_MAX in *.
  destruct (Z.leb_spec (round_ (node s) + 1) (2 ^ 31 - 1)) as [_ | Hbig];
    [| lia].
  cbn [bind].
  cbn [set_waiting set_round round_].
  destruct (round_ (node s) + 1 >=? 5); cbn [bind]; eauto.
Qed.

(** X12. No reachable state has undefined behaviour ahead of it: when the
    generator draws within its bounds, every deliverable event is processed
    to a next state, with no remainder by zero, no signed overflow of
    [round_] and no loop that outlives its 64 iterations. *)
Lemma step_defined s ev :
  in_range_draws R -> reachable s -> deliverable s ev ->
  exists s' out, step s ev = Some (s', out).
Proof.
  intros Hdraws Hreach Hev. destruct ev as [msg av | i future].
  - destruct Hev as [Hp _].
    destruct (on_params_defined (node s) msg av Hdraws Hp) as (c & o & Hon).
    cbn [step]. rewrite Hon. cbn [bind]. eauto.
  - cbn [deliverable] in Hev.
    destruct (nth_error (inflight s) i) as [r |] eqn:Hnth.
    + eapply response_defined; eassumption.
    + apply nth_error_None in Hnth. lia.
Qed.

Lemma system_eta s : {| node := node s; inflight := inflight s ++ [] |} = s.
Proof. destruct s. cbn. rewrite app_nil_r. reflexivity. Qed.

End NodeProofs.

Lemma tape_in_range : in_range_draws tape_source.
Proof.
  intros lo hi g Hle. destruct g as [| w g]; cbn; lia.
Qed.

(** ** Claims about the round state machine *)

Section RoundClaims.
Context {R : RandomSource}.

Implicit Types (c : ElGamalClient R) (s : System R).

(** C4. Single flight: in a state with [waiting_service_] set, a parameter
    event, whatever it carries, issues no request and changes nothing of the
    node; the set of outstanding requests is unchanged as well. *)
Theorem waiting_drops_params s msg av :
  waiting_service_ (node s) = true ->
  on_params (node s) msg av = Some (node s, [])
  /\ step s (ParamsMsg msg av) = Some (s, []).
Proof.
  intros Hw.
  assert (on_params (node s) msg av = Some (node s, [])) as Hon.
  { unfold on_params. rewrite Hw, orb_true_r. reflexivity. }
  split; [exact Hon |].
  cbn [step]. rewrite Hon. cbn [bind sent flat_map].
  rewrite system_eta. reflexivity.
Qed.

(** C5. Terminal state: once [finished_] is set, a parameter event leaves
    [round_], [waiting_service_] and [finished_] as they were and publishes
    no result. *)
Theorem finished_ignores_params c msg av :
  finished_ c = true ->
  exists c' out,
    on_params c msg av = Some (c', out)
    /\ round_ c' = round_ c
    /\ waiting_service_ c' = waiting_service_ c
    /\ finished_ c' = finished_ c
    /\ published out = [].
Proof.
  intros Hf. exists c, [].
  unfold on_params. rewrite Hf. cbn [orb]. auto.
Qed.

(** C6. Across every step (a parameter event, a successful response, a
    failed response) [round_] does not decrease; a successful response
    increments it by exactly 1 and no other step changes it. *)
Theorem round_monotone s ev s' out :
  step s ev = Some (s', out) ->
  round_ (node s) <= round_ (node s')
  /\ match ev with
     | ServiceResponse _ (FutureValue _ _) =>
         round_ (node s') = round_ (node s) + 1
     | ServiceResponse _ FutureException => round_ (node s') = round_ (node s)
     | ParamsMsg _ _ => round_ (node s') = round_ (node s)
     end.
Proof.
  intros Hstep.
  destruct ev as [msg av | i future]; cbn [step] in Hstep.
  - destruct (on_params (node s) msg av) as [[c o] |] eqn:Hon;
      cbn [bind] in Hstep; [| discriminate].
    injection Hstep as <- <-. cbn [node].
    apply on_params_cases in Hon
      as [(-> & _) | [(_ & _ & _ & -> & _) | (_ & _ & _ & _ & b & _ & Hav)]];
      [| | destruct Hav as [(_ & -> & _) | (_ & -> & _)]];
      cbn; lia.
  - destruct (nth_error (inflight s) i) as [r |];
      cbn [bind] in Hstep; [| discriminate].
    destruct (on_response (node s) r future) as [[c o] |] eqn:Hon;
      cbn [bind] in Hstep; [| discriminate].
    injection Hstep as <- <-. cbn [node].
    apply on_response_cases in Hon as (Hr & _).
    destruct future; lia.
Qed.

(** C7. In every reachable state with [finished_] set, [round_] equals the
    total of 5 rounds, and from then on no round is executed: every further
    sequence of events leaves the state as it is and has no effect. *)
Theorem finished_is_terminal s :
  reachable s -> finished_ (node s) = true ->
  round_ (node s) = 5
  /\ forall evs s' out, run s evs = Some (s', out) -> s' = s /\ out = [].
Proof.
  intros Hreach Hf.
  destruct (reachable_invariant s Hreach) as (_ & Hfin & Hwait).
  split; [exact (Hfin Hf) |].
  assert (inflight s = []) as Hnone.
  { destruct (waiting_service_ (node s)); [| exact Hwait].
    destruct Hwait as (Hnf & _). congruence. }
  assert (forall ev s1 o1, step s ev = Some (s1, o1) -> s1 = s /\ o1 = [])
    as Hstep.
  { intros [msg av | i future] s1 o1; cbn [step].
    - unfold on_params. rewrite Hf. cbn [orb bind sent flat_map].
      rewrite system_eta. intros H. injection H as <- <-. auto.
    - rewrite Hnone. destruct i; discriminate. }
  induction evs as [| ev evs IH]; intros s' out Hrun; cbn [run] in Hrun.
  - injection Hrun as <- <-. auto.
  - destruct (step s ev) as [[s1 o1] |] eqn:H1;
      cbn [bind] in Hrun; [| discriminate].
    apply Hstep in H1 as (-> & ->).
    destruct (run s evs) as [[s2 o2] |] eqn:H2;
      cbn [bind] in Hrun; [| discriminate].
    injection Hrun as <- <-.
    destruct (IH s2 o2 eq_refl) as (-> & ->). auto.
Qed.

(** C8. In a reachable state waiting for a response, a failed response
    clears [waiting_service_] and leaves no request outstanding, does not
    change [round_], does not set [finished_] and publishes nothing; the next
    valid parameter event, with the service available, then sends a new
    request for the same round whose secret is drawn at that moment. *)
Theorem failed_response_retries s msg :
  in_range_draws R ->
  reachable s -> waiting_service_ (node s) = true ->
  is_u64 (msg_p msg) -> 3 <= msg_p msg ->
  let s1 := {| node := set_waiting (node s) false; inflight := [] |} in
  let n' := fst (uniform_int 1 (msg_p msg - 2) (rng_ (node s))) in
  let g' := snd (uniform_int 1 (msg_p msg - 2) (rng_ (node s))) in
  let retry := {| req_public_key := msg_a msg ^ n' mod msg_p msg;
                  cap_p := msg_p msg; cap_n := n' |} in
  (exists r, inflight s = [r])
  /\ step s (ServiceResponse 0 FutureException) = Some (s1, [])
  /\ waiting_service_ (node s1) = false
  /\ round_ (node s1) = round_ (node s)
  /\ finished_ (node s1) = false
  /\ step s1 (ParamsMsg msg true)
     = Some ({| node := set_waiting (set_rng (node s1) g') true;
                inflight := [retry] |},
             [SendRequest retry])
  /\ 1 <= n' <= msg_p msg - 2.
Proof.
  intros Hdraws Hreach Hw Hu Hp s1 n' g' retry.
  destruct (reachable_invariant s Hreach) as (_ & _ & Hwait).
  rewrite Hw in Hwait. destruct Hwait as (Hf & Hr & r & Hin & _).
  pose proof (Hdraws 1 (msg_p msg - 2) (rng_ (node s)) ltac:(lia)) as Hn.
  fold n' in Hn.
  split; [eauto |].
  split; [cbn [step]; rewrite Hin; reflexivity |].
  repeat split; try reflexivity; try exact Hf; try lia.
  cbn [step]. unfold on_params. subst s1.
  cbn [node inflight set_waiting finished_ waiting_service_ round_ rng_ orb].
  rewrite Hf. cbn [orb].
  destruct (Z.geb_spec (round_ (node s)) kTotalRounds) as [Hge | _]; [lia |].
  destruct (Z.ltb_spec (msg_p msg) 3) as [Hlt | _]; [lia |].
  subst n' g' retry.
  destruct (uniform_int 1 (msg_p msg - 2) (rng_ (node s))) as [n g].
  cbn [fst snd] in *.
  rewrite mod_pow_spec by (unfold is_u64 in *; lia).
  reflexivity.
Qed.

(** C9. In the idle state, a parameter event that gets as far as the
    availability probe and finds the service unavailable leaves [round_],
    [waiting_service_] and [finished_] as they were, sends no request and
    publishes nothing; the node is idle again and the next valid event
    reaches the probe again. Only the generator has advanced by the draw
    made before the probe. *)
Theorem unavailable_service_keeps_idle s msg :
  in_range_draws R ->
  is_u64 (msg_p msg) ->
  reaches_probe (node s) msg = true ->
  let c := node s in
  let c' := set_rng c (snd (uniform_int 1 (msg_p msg - 2) (rng_ c))) in
  on_params c msg false = Some (c', [])
  /\ step s (ParamsMsg msg false)
     = Some ({| node := c'; inflight := inflight s |}, [])
  /\ round_ c' = round_ c
  /\ waiting_service_ c' = waiting_service_ c
  /\ finished_ c' = finished_ c
  /\ waiting_service_ c' = false /\ finished_ c' = false
  /\ forall msg', 3 <= msg_p msg' -> reaches_probe c' msg' = true.
Proof.
  intros Hdraws Hu Hprobe c c'. subst c c'.
  unfold reaches_probe in Hprobe.
  apply andb_true_iff in Hprobe as [Hprobe Hp].
  apply andb_true_iff in Hprobe as [Hidle Hr].
  apply negb_true_iff in Hidle, Hr, Hp.
  apply orb_false_iff in Hidle as [Hf Hw].
  apply Z.ltb_ge in Hp.
  pose proof (Hdraws 1 (msg_p msg - 2) (rng_ (node s)) ltac:(lia)) as Hn.
  set (c' := set_rng (node s) _).
  assert (on_params (node s) msg false = Some (c', [])) as Hon.
  { unfold on_params. rewrite Hf, Hw, Hr. cbn [orb].
    destruct (Z.ltb_spec (msg_p msg) 3) as [Hlt | _]; [lia |].
    subst c'.
    destruct (uniform_int 1 (msg_p msg - 2) (rng_ (node s))) as [n g].
    cbn [fst snd] in *.
    rewrite mod_pow_spec by (unfold is_u64 in *; lia).
    reflexivity. }
  split; [exact Hon |].
  split.
  { cbn [step]. rewrite Hon. cbn [bind sent flat_map].
    rewrite app_nil_r. reflexivity. }
  repeat split; try reflexivity; try assumption.
  intros msg' Hp'. unfold reaches_probe.
  subst c'. cbn [set_rng finished_ waiting_service_ round_].
  rewrite Hf, Hw, Hr. cbn.
  destruct (Z.ltb_spec (msg_p msg') 3) as [Hlt | _]; [lia | reflexivity].
Qed.

(** C10. In every reachable state [waiting_service_] and [finished_] are
    not both set. *)
Theorem waiting_excludes_finished s :
  reachable s ->
  (waiting_service_ (node s) = true -> finished_ (node s) = false)
  /\ (finished_ (node s) = true -> waiting_service_ (node s) = false).
Proof.
  intros Hreach.
  destruct (reachable_invariant s Hreach) as (_ & _ & Hwait).
  destruct (waiting_service_ (node s)).
  - destruct Hwait as (Hf & _). split; congruence.
  - split; congruence.
Qed.

End RoundClaims.

(** ** The claims on the scenario *)

Lemma waiting_drops_params_witness :
  waiting_service_ (node scenario_waiting) = true
  /\ on_params (node scenario_waiting) scenario_params true
     = Some (node scenario_waiting, [])
  /\ step scenario_waiting (ParamsMsg scenario_params true)
     = Some (scenario_waiting, []).
Proof.
  split; [reflexivity |].
  apply (waiting_drops_params scenario_waiting scenario_params true).
  reflexivity.
Defined.

Lemma finished_ignores_params_witness :
  finished_ (node scenario_finished) = true
  /\ exists c' out,
      on_params (node scenario_finished) scenario_params true = Some (c', out)
      /\ round_ c' = 5
      /\ waiting_service_ c' = false
      /\ finished_ c' = true
      /\ published out = [].
Proof.
  split; [reflexivity |].
  apply (finished_ignores_params (node scenario_finished) scenario_params true).
  reflexivity.
Defined.

Lemma round_monotone_witness :
  step scenario_waiting (ServiceResponse 0 (FutureValue 10 21))
  = Some (scenario_after_round, [Publish 15])
  /\ round_ (node scenario_waiting) <= round_ (node scenario_after_round)
  /\ round_ (node scenario_after_round) = round_ (node scenario_waiting) + 1.
Proof.
  split; [reflexivity |].
  apply (round_monotone scenario_waiting (ServiceResponse 0 (FutureValue 10 21))
           scenario_after_round [Publish 15]).
  reflexivity.
Defined.

Lemma finished_is_terminal_witness :
  finished_ (node scenario_finished) = true
  /\ round_ (node scenario_finished) = 5
  /\ forall evs s' out,
      run scenario_finished evs = Some (s', out) ->
      s' = scenario_finished /\ out = [].
Proof.
  split; [reflexivity |].
  apply (finished_is_terminal scenario_finished); [| reflexivity].
  exists scenario_seed.
  exists (scenario_round ++ scenario_round ++ scenario_round
          ++ scenario_round ++ scenario_round).
  eexists. vm_compute. reflexivity.
Defined.

Lemma failed_response_retries_witness :
  let s1 : System tape_source :=
    {| node := set_waiting (node scenario_waiting) false; inflight := [] |} in
  let n' := 6 in
  let retry := {| req_public_key := 5 ^ n' mod 23; cap_p := 23; cap_n := n' |} in
  waiting_service_ (node scenario_waiting) = true
  /\ (exists r, inflight scenario_waiting = [r])
  /\ step scenario_waiting (ServiceResponse 0 FutureException) = Some (s1, [])
  /\ waiting_service_ (node s1) = false
  /\ round_ (node s1) = round_ (node scenario_waiting)
  /\ finished_ (node s1) = false
  /\ step s1 (ParamsMsg scenario_params true)
     = Some ({| node := set_waiting
                          (@set_rng tape_source (node s1) (tl (tl scenario_seed)))
                          true;
                inflight := [retry] |},
             [SendRequest retry])
  /\ 1 <= n' <= 23 - 2.
Proof.
  intros s1 n' retry.
  split; [reflexivity |].
  apply (failed_response_retries scenario_waiting scenario_params).
  - exact tape_in_range.
  - exists scenario_seed, [ParamsMsg scenario_params true].
    eexists. vm_compute. reflexivity.
  - reflexivity.
  - unfold is_u64. cbn. lia.
  - cbn. lia.
Defined.

Lemma unavailable_service_keeps_idle_witness :
  let s : System tape_source := @initial tape_source scenario_seed in
  let c' := @set_rng tape_source (node s) (tl scenario_seed) in
  reaches_probe (node s) scenario_params = true
  /\ on_params (node s) scenario_params false = Some (c', [])
  /\ step s (ParamsMsg scenario_params false)
     = Some ({| node := c'; inflight := [] |}, [])
  /\ round_ c' = 0
  /\ waiting_service_ c' = false
  /\ finished_ c' = false
  /\ waiting_service_ c' = false /\ finished_ c' = false
  /\ forall msg', 3 <= msg_p msg' -> reaches_probe c' msg' = true.
Proof.
  intros s c'.
  split; [reflexivity |].
  apply (unavailable_service_keeps_idle s scenario_params).
  - exact tape_in_range.
  - unfold is_u64. cbn. lia.
  - reflexivity.
Defined.

Lemma waiting_excludes_finished_witness :
  (waiting_service_ (node scenario_waiting) = true ->
   finished_ (node scenario_waiting) = false)
  /\ (finished_ (node scenario_waiting) = true ->
      waiting_service_ (node scenario_waiting) = false).
Proof.
  apply (waiting_excludes_finished scenario_waiting).
  exists scenario_seed, [ParamsMsg scenario_params true].
  eexists. vm_compute. reflexivity.
Defined.

(** ** Further properties of the modular arithmetic *)

Lemma u64_mod_range x m : 0 < m -> 0 <= u64 (x mod m) < m.
Proof.
  intros Hm. pose proof (Z.mod_pos_bound x m Hm) as Hx.
  unfold u64.
  pose proof (Z.mod_pos_bound (x mod m) (2 ^ 64) ltac:(lia)).
  pose proof (Z.mod_le (x mod m) (2 ^ 64) ltac:(lia) ltac:(lia)).
  lia.
Qed.

(** Whatever the operands, what the loop returns is reduced modulo [m]. *)
Lemma mod_pow_loop_range fuel :
  forall result base exp m z,
    0 < m -> 0 <= result < m ->
    mod_pow_loop fuel result base exp m = Some z -> 0 <= z < m.
Proof.
  induction fuel as [| fuel IH]; intros result base exp m z Hm Hr;
    cbn [mod_pow_loop]; destruct (exp >? 0).
  - discriminate.
  - intros H. injection H as <-. exact Hr.
  - unfold mod_mul. destruct (Z.eqb_spec m 0) as [E | _]; [lia |].
    destruct (negb (Z.land exp 1 =? 0)); cbn [bind]; apply IH;
      auto using u64_mod_range.
  - intros H. injection H as <-. exact Hr.
Qed.

Lemma mod_pow_range base exp m z :
  0 < m -> mod_pow base exp m = Some z -> 0 <= z < m.
Proof.
  intros Hm. unfold mod_pow.
  destruct (Z.eqb_spec m 0) as [E | _]; [lia |].
  apply mod_pow_loop_range; [exact Hm |].
  apply Z.mod_pos_bound. exact Hm.
Qed.

(** X1. [recover] never fails and never leaves the residues: for every
    modulus [p >= 1] it returns a value in [0, p), whatever ciphertext and
    whatever secret it is given (the callback validates neither). *)
Theorem recover_total_bounded y1 y2 p n :
  1 <= p -> exists x, recover y1 y2 p n = Some x /\ 0 <= x < p.
Proof.
  intros Hp.
  destruct (recover_defined y1 y2 p n ltac:(lia)) as [x Hx].
  exists x. split; [exact Hx |].
  unfold recover in Hx.
  destruct (mod_pow y1 (u64 (p - 1 - n)) p) as [e |]; cbn [bind] in Hx;
    [| discriminate].
  unfold mod_mul in Hx. destruct (Z.eqb_spec p 0) as [E | _]; [lia |].
  injection Hx as <-. apply u64_mod_range. lia.
Qed.

Lemma recover_total_bounded_witness :
  1 <= 23 /\ exists x, recover (2 ^ 64 - 1) 99 23 500 = Some x /\ 0 <= x < 23.
Proof.
  split; [lia |].
  apply (recover_total_bounded (2 ^ 64 - 1) 99 23 500). lia.
Defined.

(** X2. Exponents add: for 64-bit exponents whose sum is still 64 bits,
    multiplying [mod_pow(base, e1, m)] and [mod_pow(base, e2, m)] with
    [mod_mul] gives [mod_pow(base, e1 + e2, m)]. *)
Theorem mod_pow_add base e1 e2 m :
  is_u64 e1 -> is_u64 e2 -> is_u64 (e1 + e2) -> is_u64 m -> 1 <= m ->
  exists z1 z2,
    mod_pow base e1 m = Some z1
    /\ mod_pow base e2 m = Some z2
    /\ mod_mul z1 z2 m = mod_pow base (e1 + e2) m.
Proof.
  intros H1 H2 H12 Hm Hpos.
  exists (base ^ e1 mod m), (base ^ e2 mod m).
  rewrite !mod_pow_spec by assumption.
  repeat split.
  assert (forall z, is_u64 (z mod m)) as Umod.
  { intros z. pose proof (Z.mod_pos_bound z m ltac:(lia)).
    unfold is_u64 in *. lia. }
  rewrite mod_mul_spec by auto.
  f_equal. rewrite <- Z.mul_mod by lia.
  rewrite Z.pow_add_r by (unfold is_u64 in *; lia). reflexivity.
Qed.

Lemma mod_pow_add_witness :
  exists z1 z2,
    mod_pow 5 6 23 = Some z1
    /\ mod_pow 5 10 23 = Some z2
    /\ mod_mul z1 z2 23 = mod_pow 5 (6 + 10) 23.
Proof.
  apply (mod_pow_add 5 6 10 23); unfold is_u64; lia.
Defined.



(** The recovery of an honest ciphertext, for any base that is not a
    multiple of the prime modulus. *)
Lemma recover_honest p a n m k :
  Z.prime p -> is_u64 p -> a mod p <> 0 ->
  1 <= n <= p - 2 -> 0 <= m <= p - 1 -> 0 <= k ->
  recover (a ^ k mod p) (m * (a ^ n mod p) ^ k mod p) p n = Some m.
Proof.
  intros Hprime Hp Ha Hn Hm Hk.
  assert (1 < p) as Hp1 by (destruct Hprime; assumption).
  unfold recover.
  assert (is_u64 (p - 1 - n)) as Ue by (unfold is_u64 in *; lia).
  rewrite (u64_small _ Ue).
  rewrite mod_pow_spec by (assumption || lia). cbn [bind].
  assert (forall z, is_u64 (z mod p)) as Umod.
  { intros z. pose proof (Z.mod_pos_bound z p ltac:(lia)).
    unfold is_u64 in *. lia. }
  rewrite mod_mul_spec by (auto; lia).
  f_equal. rewrite elgamal_cancel by (assumption || lia).
  apply Z.mod_small. lia.
Qed.


Lemma remove_nth_Forall {A : Type} (P : A -> Prop) (l : list A) :
  forall i, Forall P l -> Forall P (remove_nth i l).
Proof.
  induction l as [| y l IH]; intros [| i] H; cbn; auto;
    inversion H; subst; auto.
Qed.

(** ** Further properties of the round state machine *)

Section RoundProperties.
Context {R : RandomSource}.

Implicit Types (c : ElGamalClient R) (s : System R).

Lemma on_response_out c r future c' out :
  on_response c r future = Some (c', out) ->
  sent out = []
  /\ Z.of_nat (length (published out)) = round_ c' - round_ c.
Proof.
  intros H. pose proof (on_response_cases c r future c' out H) as (Hr & _).
  unfold on_response in H. destruct future as [y1 y2 |].
  - destruct (recover y1 y2 (cap_p r) (cap_n r)) as [x |];
      cbn [bind] in H; [| discriminate].
    destruct (incr_int (round_ c)) as [r' |]; cbn [bind] in H; [| discriminate].
    destruct (round_ (set_waiting (set_round c r') false) >=? kTotalRounds);
      injection H as _ <-; cbn; split; (reflexivity || lia).
  - injection H as _ <-. cbn. split; (reflexivity || lia).
Qed.

Lemma on_params_out c msg av c' out :
  on_params c msg av = Some (c', out) ->
  published out = [] /\ round_ c' = round_ c.
Proof.
  intros H. apply on_params_cases in H
    as [(-> & ->) | [(_ & _ & _ & -> & ->) | (_ & _ & _ & _ & b & _ & Hav)]];
    [| | destruct Hav as [(_ & -> & ->) | (_ & -> & ->)]]; cbn; auto.
Qed.

(** Every step publishes as many results as it advances [round_]. *)
Lemma step_published s ev s' out :
  step s ev = Some (s', out) ->
  Z.of_nat (length (published out)) = round_ (node s') - round_ (node s).
Proof.
  intros Hstep. destruct ev as [msg av | i future]; cbn [step] in Hstep.
  - destruct (on_params (node s) msg av) as [[c o] |] eqn:Hon;
      cbn [bind] in Hstep; [| discriminate].
    injection Hstep as <- <-. cbn [node].
    apply on_params_out in Hon as (-> & ->). cbn. lia.
  - destruct (nth_error (inflight s) i) as [r |];
      cbn [bind] in Hstep; [| discriminate].
    destruct (on_response (node s) r future) as [[c o] |] eqn:Hon;
      cbn [bind] in Hstep; [| discriminate].
    injection Hstep as <- <-. cbn [node].
    apply on_response_out in Hon as (_ & Hlen). exact Hlen.
Qed.

Lemma run_published evs :
  forall s s' out,
    run s evs = Some (s', out) ->
    Z.of_nat (length (published out)) = round_ (node s') - round_ (node s).
Proof.
  induction evs as [| ev evs IH]; intros s s' out Hrun; cbn [run] in Hrun.
  - injection Hrun as <- <-. cbn. lia.
  - destruct (step s ev) as [[s1 o1] |] eqn:Hstep;
      cbn [bind] in Hrun; [| discriminate].
    destruct (run s1 evs) as [[s2 o2] |] eqn:Hrest;
      cbn [bind] in Hrun; [| discriminate].
    injection Hrun as <- <-.
    apply step_published in Hstep. apply IH in Hrest.
    unfold published in *. rewrite flat_map_app, length_app. lia.
Qed.

(** X4. The node publishes one result per completed round and never more
    than 5: after any run from the initial state, the number of published
    results equals [round_], which is at most [kTotalRounds]. *)
Theorem published_count_is_round seed evs s out :
  run (initial seed) evs = Some (s, out) ->
  Z.of_nat (length (published out)) = round_ (node s)
  /\ (length (published out) <= 5)%nat.
Proof.
  intros Hrun.
  pose proof (run_published evs _ _ _ Hrun) as Hlen. cbn in Hlen.
  assert (round_invariant s) as (Hround & _).
  { eapply run_invariant; [apply initial_invariant | exact Hrun]. }
  unfold kTotalRounds in Hround. split; lia.
Qed.



End RoundProperties.

Lemma published_count_is_round_witness :
  Z.of_nat (length (published [SendRequest {| req_public_key := 8;
                                             cap_p := 23; cap_n := 6 |};
                               Publish 15]))
  = round_ (node scenario_after_round)
  /\ (length (published [SendRequest {| req_public_key := 8;
                                       cap_p := 23; cap_n := 6 |};
                         Publish 15]) <= 5)%nat.
Proof.
  apply (published_count_is_round (R := tape_source) scenario_seed
           scenario_round scenario_after_round).
  reflexivity.
Defined.


Section RoundInvariants.
Context {R : RandomSource}.

Implicit Types (c : ElGamalClient R) (s : System R).

Lemma step_round_finished s ev s' out :
  (kTotalRounds <= round_ (node s) -> finished_ (node s) = true) ->
  step s ev = Some (s', out) ->
  kTotalRounds <= round_ (node s') -> finished_ (node s') = true.
Proof.
  intros Hinv Hstep. destruct ev as [msg av | i future]; cbn [step] in Hstep.
  - destruct (on_params (node s) msg av) as [[c o] |] eqn:Hon;
      cbn [bind] in Hstep; [| discriminate].
    injection Hstep as <- <-. cbn [node].
    apply on_params_cases in Hon
      as [(-> & _) | [(_ & _ & _ & -> & _) | (Hf & _ & Hr & _ & b & _ & Hav)]];
      [exact Hinv | reflexivity |].
    destruct Hav as [(_ & -> & _) | (_ & -> & _)]; cbn; lia.
  - destruct (nth_error (inflight s) i) as [r |];
      cbn [bind] in Hstep; [| discriminate].
    destruct (on_response (node s) r future) as [[c o] |] eqn:Hon;
      cbn [bind] in Hstep; [| discriminate].
    injection Hstep as <- <-. cbn [node].
    apply on_response_cases in Hon as (Hr & _ & _ & Hf).
    rewrite Hr, Hf. destruct future as [y1 y2 |]; [| exact Hinv].
    destruct (Z.geb_spec (round_ (node s) + 1) kTotalRounds); [reflexivity | lia].
Qed.

Lemma reachable_round_finished s :
  reachable s -> kTotalRounds <= round_ (node s) -> finished_ (node s) = true.
Proof.
  intros (seed & evs & out & Hrun). revert Hrun.
  assert (kTotalRounds <= round_ (node (initial seed)) ->
          finished_ (node (initial seed)) = true) as H0
    by (unfold kTotalRounds; cbn; lia).
  revert H0. generalize (initial seed). revert s out.
  induction evs as [| ev evs IH]; intros s out s0 H0 Hrun; cbn [run] in Hrun.
  - injection Hrun as <- <-. exact H0.
  - destruct (step s0 ev) as [[s1 o1] |] eqn:Hstep;
      cbn [bind] in Hrun; [| discriminate].
    destruct (run s1 evs) as [[s2 o2] |] eqn:Hrest;
      cbn [bind] in Hrun; [| discriminate].
    injection Hrun as <- <-.
    eapply IH; [| exact Hrest].
    eapply step_round_finished; eassumption.
Qed.

(** X6. In every reachable state the node is finished exactly when
    [round_] has reached [kTotalRounds]: the last successful response sets
    [finished_] itself (line 116), so the branch of lines 60-64 is never
    taken and no parameter event changes [finished_]. *)
Theorem finished_iff_all_rounds s :
  reachable s ->
  (finished_ (node s) = true <-> round_ (node s) = kTotalRounds)
  /\ forall msg av s' out,
      step s (ParamsMsg msg av) = Some (s', out) ->
      finished_ (node s') = finished_ (node s).
Proof.
  intros Hreach.
  destruct (reachable_invariant s Hreach) as (Hround & Hfin & _).
  pose proof (reachable_round_finished s Hreach) as Hdone.
  split; [split; [exact Hfin | intros E; apply Hdone; lia] |].
  intros msg av s' out Hstep. cbn [step] in Hstep.
  destruct (on_params (node s) msg av) as [[c o] |] eqn:Hon;
    cbn [bind] in Hstep; [| discriminate].
  injection Hstep as <- <-. cbn [node].
  apply on_params_cases in Hon
    as [(-> & _) | [(Hf & _ & Hr & _) | (_ & _ & _ & _ & b & _ & Hav)]].
  - reflexivity.
  - rewrite Hdone in Hf by exact Hr. discriminate.
  - destruct Hav as [(_ & -> & _) | (_ & -> & _)]; reflexivity.
Qed.

Lemma step_wf_requests s ev s' out :
  in_range_draws R ->
  Forall wf_request (inflight s) ->
  step s ev = Some (s', out) ->
  Forall wf_request (inflight s').
Proof.
  intros Hdraws Hinv Hstep.
  destruct ev as [msg av | i future]; cbn [step] in Hstep.
  - destruct (on_params (node s) msg av) as [[c o] |] eqn:Hon;
      cbn [bind] in Hstep; [| discriminate].
    injection Hstep as <- <-. cbn [inflight].
    apply Forall_app. split; [exact Hinv |].
    apply on_params_cases in Hon
      as [(_ & ->) | [(_ & _ & _ & _ & ->) | (_ & _ & _ & Hp & b & Hb & Hav)]];
      [constructor | constructor |].
    destruct Hav as [(_ & _ & ->) | (_ & _ & ->)]; [constructor |].
    cbn [sent flat_map app]. constructor; [| constructor].
    pose proof (Hdraws 1 (msg_p msg - 2) (rng_ (node s)) ltac:(lia)) as Hn.
    apply mod_pow_range in Hb; [| lia].
    unfold wf_request. cbn. auto.
  - destruct (nth_error (inflight s) i) as [r |];
      cbn [bind] in Hstep; [| discriminate].
    destruct (on_response (node s) r future) as [[c o] |];
      cbn [bind] in Hstep; [| discriminate].
    injection Hstep as <- <-. cbn [inflight].
    apply remove_nth_Forall. exact Hinv.
Qed.

Lemma reachable_wf_requests s :
  in_range_draws R -> reachable s -> Forall wf_request (inflight s).
Proof.
  intros Hdraws (seed & evs & out & Hrun). revert Hrun.
  assert (Forall wf_request (inflight (initial seed))) as H0 by constructor.
  revert H0. generalize (initial seed). revert s out.
  induction evs as [| ev evs IH]; intros s out s0 H0 Hrun; cbn [run] in Hrun.
  - injection Hrun as <- <-. exact H0.
  - destruct (step s0 ev) as [[s1 o1] |] eqn:Hstep;
      cbn [bind] in Hrun; [| discriminate].
    destruct (run s1 evs) as [[s2 o2] |] eqn:Hrest;
      cbn [bind] in Hrun; [| discriminate].
    injection Hrun as <- <-.
    eapply IH; [| exact Hrest].
    eapply step_wf_requests; eassumption.
Qed.

(** X7. Single flight: in every reachable state at most one request is
    outstanding, and one is outstanding exactly while [waiting_service_] is
    set; when the generator draws within its bounds, that request carries a
    modulus [p >= 3], a secret in [1, p-2] and a public key below [p]. *)
Theorem single_request_in_flight s :
  in_range_draws R -> reachable s ->
  (length (inflight s) <= 1)%nat
  /\ (waiting_service_ (node s) = true <-> inflight s <> [])
  /\ Forall wf_request (inflight s).
Proof.
  intros Hdraws Hreach.
  destruct (reachable_invariant s Hreach) as (_ & _ & Hwait).
  split; [| split].
  - destruct (waiting_service_ (node s)).
    + destruct Hwait as (_ & _ & r & -> & _). cbn. lia.
    + rewrite Hwait. cbn. lia.
  - destruct (waiting_service_ (node s)).
    + destruct Hwait as (_ & _ & r & -> & _). split; [discriminate | auto].
    + rewrite Hwait. split; [discriminate | congruence].
  - apply reachable_wf_requests; assumption.
Qed.

End RoundInvariants.

Section RoundBehaviour.
Context {R : RandomSource}.

Implicit Types (c : ElGamalClient R) (s : System R).

(** X8. What [on_params] never does: it publishes nothing and leaves
    [round_] alone; it draws from the generator exactly when the event passes
    the guards of lines 56-72, and it sends a request, a single one, only
    when in addition the service is available, setting [waiting_service_]
    only then. *)
Theorem on_params_effects c msg av c' out :
  on_params c msg av = Some (c', out) ->
  published out = []
  /\ round_ c' = round_ c
  /\ rng_ c' = (if reaches_probe c msg
                then snd (uniform_int 1 (msg_p msg - 2) (rng_ c))
                else rng_ c)
  /\ ((out = [] /\ waiting_service_ c' = waiting_service_ c)
      \/ (reaches_probe c msg = true /\ av = true
          /\ waiting_service_ c' = true
          /\ exists r, out = [SendRequest r])).
Proof.
  unfold on_params, reaches_probe. intros H.
  destruct (finished_ c || waiting_service_ c); cbn [negb andb];
    [injection H as <- <-; repeat split; auto |].
  destruct (round_ c >=? kTotalRounds); cbn [negb andb];
    [injection H as <- <-; cbn; repeat split; auto |].
  destruct (msg_p msg <? 3); cbn [negb andb];
    [injection H as <- <-; repeat split; auto |].
  destruct (uniform_int 1 (msg_p msg - 2) (rng_ c)) as [n g]. cbn [snd].
  destruct (mod_pow (msg_a msg) n (msg_p msg)) as [b |];
    cbn [bind] in H; [| discriminate].
  destruct av; cbn [negb] in H; injection H as <- <-; cbn.
  - repeat split. right. repeat split. eauto.
  - repeat split; auto.
Qed.

(** X9. A whole round: from a reachable idle state, a parameter event with
    a 64-bit prime [p >= 3] and a base that is not a multiple of [p] sends
    the public key [a^n mod p]; an honest response to it, the encryption
    of any message [m] in [0, p-1] under that key with any ephemeral [k],
    publishes [m] (as cast by line 104), advances [round_] by one and leaves
    the node idle, or finished after the last round. *)
Theorem honest_round_publishes_message s msg k m :
  in_range_draws R -> reachable s ->
  waiting_service_ (node s) = false -> finished_ (node s) = false ->
  is_prime (msg_p msg) = true -> is_u64 (msg_p msg) -> 3 <= msg_p msg ->
  msg_a msg mod msg_p msg <> 0 ->
  0 <= k -> 0 <= m <= msg_p msg - 1 ->
  let p := msg_p msg in
  let n := fst (uniform_int 1 (p - 2) (rng_ (node s))) in
  let g := snd (uniform_int 1 (p - 2) (rng_ (node s))) in
  let b := msg_a msg ^ n mod p in
  let r := {| req_public_key := b; cap_p := p; cap_n := n |} in
  let s1 := {| node := set_waiting (set_rng (node s) g) true;
               inflight := [r] |} in
  step s (ParamsMsg msg true) = Some (s1, [SendRequest r])
  /\ exists s2,
      step s1 (ServiceResponse 0 (FutureValue (msg_a msg ^ k mod p)
                                              (m * b ^ k mod p)))
      = Some (s2, [Publish (to_int64 m)])
      /\ round_ (node s2) = round_ (node s) + 1
      /\ waiting_service_ (node s2) = false
      /\ finished_ (node s2) = (round_ (node s) + 1 >=? kTotalRounds)
      /\ inflight s2 = [].
Proof.
  intros Hdraws Hreach Hw Hf Hprime Hu Hp Ha Hk Hm p n g b r s1.
  destruct (reachable_invariant s Hreach) as (Hround & _ & Hwait).
  rewrite Hw in Hwait.
  assert (round_ (node s) < kTotalRounds) as Hr.
  { destruct (Z.lt_ge_cases (round_ (node s)) kTotalRounds) as [H | H];
      [exact H |].
    apply (reachable_round_finished s Hreach) in H. congruence. }
  pose proof (Hdraws 1 (p - 2) (rng_ (node s)) ltac:(subst p; lia)) as Hn.
  fold n in Hn.
  assert (step s (ParamsMsg msg true) = Some (s1, [SendRequest r])) as H1.
  { cbn [step]. unfold on_params. rewrite Hf, Hw. cbn [orb].
    destruct (Z.geb_spec (round_ (node s)) kTotalRounds) as [Hge | _]; [lia |].
    destruct (Z.ltb_spec (msg_p msg) 3) as [Hlt | _]; [lia |].
    subst s1 r b n g p.
    destruct (uniform_int 1 (msg_p msg - 2) (rng_ (node s))) as [n0 g0].
    cbn [fst snd] in *.
    rewrite mod_pow_spec by (unfold is_u64 in *; lia).
    cbn [bind negb sent flat_map app]. rewrite Hwait. reflexivity. }
  split; [exact H1 |].
  assert (recover (msg_a msg ^ k mod p) (m * b ^ k mod p) p n = Some m) as Hrec.
  { subst b. apply recover_honest; auto.
    apply is_prime_sound. exact Hprime. }
  cbn [step]. subst s1. cbn [inflight node nth_error bind].
  unfold on_response. subst r. cbn [cap_p cap_n]. rewrite Hrec. cbn [bind].
  unfold incr_int.
  destruct (Z.leb_spec (round_ (set_waiting (set_rng (node s) g) true) + 1)
              INT_MAX) as [_ | Hbig];
    [| unfold INT_MAX, kTotalRounds in *; cbn in Hbig; lia].
  cbn [bind set_waiting set_rng set_round round_ remove_nth].
  destruct (round_ (node s) + 1 >=? kTotalRounds);
    eexists; (split; [reflexivity |]); cbn; rewrite ?Hf; auto.
Qed.

(** X10. [on_params] does not look at the base: an event that passes the
    guards with a base that is a multiple of [p] sends the public key 0,
    and under that key the honest encryption of every message with an
    ephemeral [k >= 1] is recovered as 0. *)
Theorem base_multiple_of_p_sends_zero_key c msg :
  in_range_draws R -> is_u64 (msg_p msg) ->
  reaches_probe c msg = true ->
  msg_a msg mod msg_p msg = 0 ->
  exists c' r,
    on_params c msg true = Some (c', [SendRequest r])
    /\ req_public_key r = 0
    /\ forall m k, 1 <= k ->
        recover (msg_a msg ^ k mod cap_p r)
                (m * req_public_key r ^ k mod cap_p r) (cap_p r) (cap_n r)
        = Some 0.
Proof.
  intros Hdraws Hu Hprobe Ha.
  unfold reaches_probe in Hprobe.
  apply andb_true_iff in Hprobe as [Hprobe Hp].
  apply andb_true_iff in Hprobe as [Hidle Hr].
  apply negb_true_iff in Hidle, Hr, Hp. apply Z.ltb_ge in Hp.
  pose proof (Hdraws 1 (msg_p msg - 2) (rng_ c) ltac:(lia)) as Hn.
  unfold on_params. rewrite Hidle, Hr.
  destruct (Z.ltb_spec (msg_p msg) 3) as [Hlt | _]; [lia |].
  destruct (uniform_int 1 (msg_p msg - 2) (rng_ c)) as [n g].
  cbn [fst] in Hn.
  rewrite mod_pow_spec by (unfold is_u64 in *; lia).
  cbn [bind negb].
  assert (forall e, 1 <= e -> msg_a msg ^ e mod msg_p msg = 0) as Hzero.
  { intros e He. rewrite <- Z.mod_pow_l, Ha.
    rewrite Z.pow_0_l by lia. apply Z.mod_0_l. lia. }
  eexists. eexists. split; [reflexivity |].
  cbn [req_public_key cap_p cap_n].
  split; [apply Hzero; lia |].
  intros m k Hk. rewrite !Hzero by lia.
  rewrite Z.pow_0_l, Z.mul_0_r, Z.mod_0_l by lia.
  destruct (recover_defined 0 0 (msg_p msg) n ltac:(lia)) as [x Hx].
  rewrite Hx. f_equal.
  unfold recover in Hx.
  destruct (mod_pow 0 (u64 (msg_p msg - 1 - n)) (msg_p msg)) as [e |];
    cbn [bind] in Hx; [| discriminate].
  unfold mod_mul in Hx. destruct (msg_p msg =? 0); [discriminate |].
  injection Hx as <-. cbn [Z.mul]. reflexivity.
Qed.

(** X11. No timeout: while a request is outstanding, parameter events
    alone, however many, leave the state exactly as it is and have no
    effect; only a response ends the wait. *)
Theorem waiting_persists_without_response s evs :
  waiting_service_ (node s) = true ->
  forallb is_params_event evs = true ->
  run s evs = Some (s, []).
Proof.
  intros Hw. induction evs as [| ev evs IH]; intros Hall; cbn [run].
  - reflexivity.
  - cbn [forallb] in Hall. apply andb_true_iff in Hall as [Hev Hrest].
    destruct ev as [msg av | i future]; [| discriminate].
    cbn [step]. unfold on_params. rewrite Hw, orb_true_r.
    cbn [bind sent flat_map]. rewrite system_eta.
    rewrite (IH Hrest). reflexivity.
Qed.

End RoundBehaviour.

(** ** The further properties on the scenario *)

Lemma finished_iff_all_rounds_witness :
  (finished_ (node scenario_finished) = true
   <-> round_ (node scenario_finished) = kTotalRounds)
  /\ forall msg av s' out,
      step scenario_finished (ParamsMsg msg av) = Some (s', out) ->
      finished_ (node s') = finished_ (node scenario_finished).
Proof.
  apply (finished_iff_all_rounds scenario_finished).
  exists scenario_seed.
  exists (scenario_round ++ scenario_round ++ scenario_round
          ++ scenario_round ++ scenario_round).
  eexists. vm_compute. reflexivity.
Defined.

Lemma single_request_in_flight_witness :
  (length (inflight scenario_waiting) <= 1)%nat
  /\ (waiting_service_ (node scenario_waiting) = true
      <-> inflight scenario_waiting <> [])
  /\ Forall wf_request (inflight scenario_waiting).
Proof.
  apply (single_request_in_flight scenario_waiting).
  - exact tape_in_range.
  - exists scenario_seed, [ParamsMsg scenario_params true].
    eexists. vm_compute. reflexivity.
Defined.

Lemma on_params_effects_witness :
  let c := @new_client tape_source scenario_seed in
  let c' := node scenario_waiting in
  let out := [SendRequest {| req_public_key := 8; cap_p := 23; cap_n := 6 |}] in
  on_params c scenario_params true = Some (c', out)
  /\ published out = []
  /\ round_ c' = round_ c
  /\ rng_ c' = tl scenario_seed
  /\ ((out = [] /\ waiting_service_ c' = waiting_service_ c)
      \/ (reaches_probe c scenario_params = true /\ true = true
          /\ waiting_service_ c' = true
          /\ exists r, out = [SendRequest r])).
Proof.
  intros c c' out.
  split; [reflexivity |].
  apply (on_params_effects c scenario_params true c' out).
  reflexivity.
Defined.

Lemma honest_round_publishes_message_witness :
  step (@initial tape_source scenario_seed) (ParamsMsg scenario_params true)
  = Some (scenario_waiting,
          [SendRequest {| req_public_key := 8; cap_p := 23; cap_n := 6 |}])
  /\ exists s2,
      step scenario_waiting (ServiceResponse 0 (FutureValue 10 21))
      = Some (s2, [Publish 15])
      /\ round_ (node s2) = 0 + 1
      /\ waiting_service_ (node s2) = false
      /\ finished_ (node s2) = false
      /\ inflight s2 = [].
Proof.
  apply (honest_round_publishes_message
           (@initial tape_source scenario_seed) scenario_params 3 15).
  - exact tape_in_range.
  - exists scenario_seed, []. eexists. reflexivity.
  - reflexivity.
  - reflexivity.
  - reflexivity.
  - unfold is_u64. cbn. lia.
  - cbn. lia.
  - cbn. lia.
  - lia.
  - cbn. lia.
Defined.

Lemma base_multiple_of_p_sends_zero_key_witness :
  let msg := {| msg_p := 23; msg_a := 46 |} in
  exists c' r,
    on_params (@new_client tape_source scenario_seed) msg true
    = Some (c', [SendRequest r])
    /\ req_public_key r = 0
    /\ forall m k, 1 <= k ->
        recover (46 ^ k mod cap_p r)
                (m * req_public_key r ^ k mod cap_p r) (cap_p r) (cap_n r)
        = Some 0.
Proof.
  intros msg.
  apply (base_multiple_of_p_sends_zero_key
           (@new_client tape_source scenario_seed) msg).
  - exact tape_in_range.
  - unfold is_u64. cbn. lia.
  - reflexivity.
  - reflexivity.
Defined.

Lemma waiting_persists_without_response_witness :
  run scenario_waiting
      [ParamsMsg scenario_params true; ParamsMsg scenario_params false]
  = Some (scenario_waiting, []).
Proof.
  apply (waiting_persists_without_response scenario_waiting
           [ParamsMsg scenario_params true; ParamsMsg scenario_params false]);
    reflexivity.
Defined.

Lemma step_defined_witness :
  exists s' out,
    step scenario_waiting (ServiceResponse 0 (FutureValue 10 21))
    = Some (s', out).
Proof.
  apply (step_defined scenario_waiting (ServiceResponse 0 (FutureValue 10 21))).
  - exact tape_in_range.
  - exists scenario_seed, [ParamsMsg scenario_params true].
    eexists. vm_compute. reflexivity.
  - cbn. lia.
Defined.
